(** * byteordered: a shallow embedding of [base.rs] and [wrap.rs]

    Bytes are [Z] values taken modulo 256 (a [u8] with its wrap-around
    written out).  Integer values of width [w] are [Z]; floating point
    values are modelled by their IEEE-754 bit patterns, since the crate
    only ever moves them through [f32::from_bits] / [to_bits]
    (byteorder's [read_f32] is [f32::from_bits(read_u32)]).

    The I/O collaborator ([std::io::Read] / [Write]) is a pair of type
    classes holding the two primitives the crate relies on:
    [read_exact] and [write_all], in explicit state passing style. *)

From Stdlib Require Import ZArith List Bool Lia.
Import ListNotations.
Open Scope Z_scope.

(** ** std::io *)

Inductive ErrorKind : Type :=
| NotFound | PermissionDenied | Interrupted | WriteZero | UnexpectedEof | Other.

Record IoError : Type := mkIoError { kind : ErrorKind; detail : nat }.

(** The error [read_exact] reports when the source ends too early. *)
Definition READ_EXACT_EOF : IoError := mkIoError UnexpectedEof 0.

Inductive IoResult (A : Type) : Type :=
| Ok (a : A)
| Err (e : IoError).
Arguments Ok {A} a.
Arguments Err {A} e.

(** [Read::read_exact]: the new reader state and either the [n] bytes
    read or the error. *)
Class Read (S : Type) := read_exact : S -> nat -> S * IoResult (list Z).
(** [Write::write_all]. *)
Class Write (S : Type) := write_all : S -> list Z -> S * IoResult unit.

(** [&[u8]] as a reader, generalised with an optional fault that the
    stream reports once its available bytes are exhausted.  A slice is a
    stream with no fault.  As in std's [impl Read for &[u8]], a short
    [read_exact] consumes what is left. *)
Record Stream : Type := mkStream { pending : list Z; fault : option IoError }.

Definition slice (bs : list Z) : Stream := mkStream bs None.

#[export] Instance Read_Stream : Read Stream :=
  fun s n =>
    if Nat.leb n (length (pending s))
    then (mkStream (skipn n (pending s)) (fault s), Ok (firstn n (pending s)))
    else (mkStream [] (fault s),
          Err (match fault s with Some e => e | None => READ_EXACT_EOF end)).

(** [Vec<u8>] as a writer: [write_all] appends and never fails. *)
Record Vec : Type := mkVec { contents : list Z }.

#[export] Instance Write_Vec : Write Vec :=
  fun v bs => (mkVec (contents v ++ bs), Ok tt).

(** ** byteorder *)

(** The marker types [LittleEndian] and [BigEndian] of [byteorder]. *)
Inductive ByteOrder : Type := LittleEndian | BigEndian.

(** [byteorder::NetworkEndian] is a type alias of [BigEndian]. *)
Definition NetworkEndian : ByteOrder := BigEndian.

(** The build target ([cfg(target_endian)]). *)
Class Target := { target_endian : ByteOrder }.

(** [byteorder::NativeEndian] is an alias resolved per target. *)
Definition NativeEndian `{Target} : ByteOrder := target_endian.

(** [HasOpposite::Opposite] for the marker types. *)
Definition Opposite_of (E : ByteOrder) : ByteOrder :=
  match E with LittleEndian => BigEndian | BigEndian => LittleEndian end.

(** [StaticNative::is_native]: [NativeEndian] gives [true]; the
    [cfg]-guarded impl for the other marker gives [false]. *)
Definition StaticNative_is_native `{Target} (E : ByteOrder) : bool :=
  match target_endian, E with
  | LittleEndian, LittleEndian => true
  | LittleEndian, BigEndian => false
  | BigEndian, BigEndian => true
  | BigEndian, LittleEndian => false
  end.

(** The numeric types of the per-width methods. *)
Inductive width : Type :=
| W_i16 | W_u16 | W_i32 | W_u32 | W_i64 | W_u64
| W_i128 | W_u128 | W_f32 | W_f64.

Definition size_of (w : width) : nat :=
  match w with
  | W_i16 | W_u16 => 2
  | W_i32 | W_u32 | W_f32 => 4
  | W_i64 | W_u64 | W_f64 => 8
  | W_i128 | W_u128 => 16
  end.

Definition is_signed (w : width) : bool :=
  match w with W_i16 | W_i32 | W_i64 | W_i128 => true | _ => false end.

Definition bits_of (w : width) : Z := 8 * Z.of_nat (size_of w).

(** Little-endian combination of bytes (each taken modulo 256). *)
Fixpoint le_value (buf : list Z) : Z :=
  match buf with
  | [] => 0
  | b :: rest => Z.land b 255 + 256 * le_value rest
  end.

(** Little-endian split of [v] into [n] bytes. *)
Fixpoint le_bytes (n : nat) (v : Z) : list Z :=
  match n with
  | O => []
  | S n' => Z.land v 255 :: le_bytes n' (Z.shiftr v 8)
  end.

(** [x as iN] for an unsigned [x] of [bits] bits. *)
Definition as_signed (bits : Z) (x : Z) : Z :=
  if x <? 2 ^ (bits - 1) then x else x - 2 ^ bits.

(** [ByteOrder::read_uN]: [from_le_bytes] / [from_be_bytes]. *)
Definition read_uint (E : ByteOrder) (buf : list Z) : Z :=
  match E with
  | LittleEndian => le_value buf
  | BigEndian => le_value (rev buf)
  end.

(** [ByteOrder::write_uN]: [to_le_bytes] / [to_be_bytes]. *)
Definition write_uint (E : ByteOrder) (n : nat) (v : Z) : list Z :=
  match E with
  | LittleEndian => le_bytes n v
  | BigEndian => rev (le_bytes n v)
  end.

(** [ByteOrder::read_W]: signed widths are [read_uN(buf) as iN]; float
    widths are [from_bits(read_uN(buf))], the bit pattern itself. *)
Definition decode (E : ByteOrder) (w : width) (buf : list Z) : Z :=
  let u := read_uint E buf in
  if is_signed w then as_signed (bits_of w) u else u.

(** [ByteOrder::write_W]: [write_uN(buf, n as uN)]; the cast is the
    truncation [le_bytes] performs. *)
Definition encode (E : ByteOrder) (w : width) (v : Z) : list Z :=
  write_uint E (size_of w) v.

(** Splitting a byte buffer into [n] chunks of [k] bytes. *)
Fixpoint chunks (k n : nat) (buf : list Z) : list (list Z) :=
  match n with
  | O => []
  | S n' => firstn k buf :: chunks k n' (skipn k buf)
  end.

Section ReadBytesExt.
Context {S : Type}.

(** [ReadBytesExt::read_W::<E>]:
    [let mut buf = [0; N]; self.read_exact(&mut buf)?; Ok(E::read_W(&buf))]. *)
Definition read_num `{Read S} (E : ByteOrder) (w : width) (src : S)
  : S * IoResult Z :=
  let '(src', r) := read_exact src (size_of w) in
  (src', match r with Ok buf => Ok (decode E w buf) | Err e => Err e end).

(** [ReadBytesExt::read_W_into::<E>(dst)]: one [read_exact] over the
    bytes of [dst], then an in-place conversion of every element.  The
    result carries the new contents of [dst] (of length [n]); after an
    error those contents are unspecified and not modelled. *)
Definition read_num_into `{Read S} (E : ByteOrder) (w : width) (src : S)
  (n : nat) : S * IoResult (list Z) :=
  let '(src', r) := read_exact src (n * size_of w) in
  (src', match r with
         | Ok buf => Ok (map (decode E w) (chunks (size_of w) n buf))
         | Err e => Err e
         end).

(** [WriteBytesExt::write_W::<E>(n)]:
    [let mut buf = [0; N]; E::write_W(&mut buf, n); self.write_all(&buf)]. *)
Definition write_num `{Write S} (E : ByteOrder) (w : width) (dst : S) (v : Z)
  : S * IoResult unit :=
  write_all dst (encode E w v).

(** [ReadBytesExt::read_u8]: [read_exact] of one byte. *)
Definition read_u8 `{Read S} (src : S) : S * IoResult Z :=
  let '(src', r) := read_exact src 1 in
  (src', match r with Ok buf => Ok (Z.land (hd 0 buf) 255) | Err e => Err e end).

(** [ReadBytesExt::read_i8]: [buf[0] as i8]. *)
Definition read_i8 `{Read S} (src : S) : S * IoResult Z :=
  let '(src', r) := read_exact src 1 in
  (src', match r with
         | Ok buf => Ok (as_signed 8 (Z.land (hd 0 buf) 255))
         | Err e => Err e
         end).

(** [WriteBytesExt::write_u8]: [self.write_all(&[n])]. *)
Definition write_u8 `{Write S} (dst : S) (x : Z) : S * IoResult unit :=
  write_all dst [Z.land x 255].

(** [WriteBytesExt::write_i8]: [self.write_all(&[n as u8])]. *)
Definition write_i8 `{Write S} (dst : S) (x : Z) : S * IoResult unit :=
  write_all dst [Z.land x 255].
End ReadBytesExt.

(** ** base.rs *)

(** [trait Endian]: the per-width methods generated by the macros are
    gathered into one method per kind, indexed by the width. *)
Class Endian (E : Type) := {
  Opposite : Type;
  into_opposite : E -> Opposite;
  is_native : E -> bool;
  read : forall {S : Type} `{Read S}, E -> width -> S -> S * IoResult Z;
  read_into : forall {S : Type} `{Read S},
      E -> width -> S -> nat -> S * IoResult (list Z);
  write : forall {S : Type} `{Write S}, E -> width -> S -> Z -> S * IoResult unit
}.

(** [pub struct StaticEndianness<E>(PhantomData<E>)]. *)
Inductive StaticEndianness (E : ByteOrder) : Type := PhantomData.
Arguments PhantomData {E}.

(** [StaticEndianness::new]. *)
Definition StaticEndianness_new {E : ByteOrder} : StaticEndianness E := PhantomData.

(** [StaticEndianness::<NativeEndian>::native]. *)
Definition StaticEndianness_native `{Target} : StaticEndianness NativeEndian :=
  StaticEndianness_new.

(** [impl Endian for StaticEndianness<E>]: every method is the
    [fn_static_endianness_*] macro, a direct call with the marker [E]. *)
#[export] Instance Endian_StaticEndianness `{Target} (E : ByteOrder)
  : Endian (StaticEndianness E) := {
  Opposite := StaticEndianness (Opposite_of E);
  into_opposite _ := PhantomData;
  is_native _ := StaticNative_is_native E;
  read S _ _ w src := read_num E w src;
  read_into S _ _ w src n := read_num_into E w src n;
  write S _ _ w dst v := write_num E w dst v
}.

(** [StaticEndianness::into_opposite] at its concrete type
    [StaticEndianness<E::Opposite>]. *)
Definition StaticEndianness_into_opposite `{Target} {E : ByteOrder}
  (self : StaticEndianness E) : StaticEndianness (Opposite_of E) :=
  into_opposite self.

(** [pub enum Endianness { Little, Big }]. *)
Inductive Endianness : Type := Little | Big.

(** The derived [PartialEq]. *)
Definition Endianness_eqb (a b : Endianness) : bool :=
  match a, b with
  | Little, Little | Big, Big => true
  | _, _ => false
  end.

(** [Endianness::native], one definition per [cfg(target_endian)]. *)
Definition Endianness_native `{Target} : Endianness :=
  match target_endian with LittleEndian => Little | BigEndian => Big end.

(** [Endianness::le_iff] and [Endianness::be_iff]. *)
Definition le_iff (e : bool) : Endianness := if e then Little else Big.
Definition be_iff (e : bool) : Endianness := if e then Big else Little.

(** [Endianness::to_opposite]. *)
Definition to_opposite (self : Endianness) : Endianness :=
  if Endianness_eqb self Little then Big else Little.

(** [From<StaticEndianness<LittleEndian>>] and
    [From<StaticEndianness<BigEndian>>] for [Endianness]. *)
Definition Endianness_from {E : ByteOrder} (_ : StaticEndianness E) : Endianness :=
  match E with LittleEndian => Little | BigEndian => Big end.

(** [impl Endian for Endianness]: every method is the
    [fn_runtime_endianness_*] macro, a [match self] over the two
    markers. *)
#[export] Instance Endian_Endianness `{Target} : Endian Endianness := {
  Opposite := Endianness;
  into_opposite self := to_opposite self;
  is_native self := Endianness_eqb self Endianness_native;
  read S _ self w src :=
    match self with
    | Little => read_num LittleEndian w src
    | Big => read_num BigEndian w src
    end;
  read_into S _ self w src n :=
    match self with
    | Little => read_num_into LittleEndian w src n
    | Big => read_num_into BigEndian w src n
    end;
  write S _ self w dst v :=
    match self with
    | Little => write_num LittleEndian w dst v
    | Big => write_num BigEndian w dst v
    end
}.

(** The per-width names used by the tests, e.g. [Endian::read_u64]. *)
Definition read_u64 {E} `{Endian E} {S} `{Read S} (self : E) (src : S) :=
  read self W_u64 src.
Definition read_i16 {E} `{Endian E} {S} `{Read S} (self : E) (src : S) :=
  read self W_i16 src.
Definition write_i16 {E} `{Endian E} {S} `{Write S} (self : E) (dst : S) (v : Z) :=
  write self W_i16 dst v.

(** ** wrap.rs *)

(** [pub struct ByteOrdered<T, E> { inner: T, endianness: E }]. *)
Record ByteOrdered (T E : Type) : Type :=
  mkByteOrdered { inner : T; endianness : E }.
Arguments mkByteOrdered {T E} inner endianness.
Arguments inner {T E} _.
Arguments endianness {T E} _.

Section Wrapper.
Context {T : Type}.

(** [ByteOrdered::new], [ByteOrdered::runtime] and [From<(T, E)>]. *)
Definition ByteOrdered_new {E} (inner : T) (endianness : E) : ByteOrdered T E :=
  mkByteOrdered inner endianness.
Definition ByteOrdered_runtime (inner : T) (e : Endianness) : ByteOrdered T Endianness :=
  ByteOrdered_new inner e.

(** [new_default] with [StaticEndianness::default()]. *)
Definition ByteOrdered_le (inner : T) : ByteOrdered T (StaticEndianness LittleEndian) :=
  mkByteOrdered inner StaticEndianness_new.
Definition ByteOrdered_be (inner : T) : ByteOrdered T (StaticEndianness BigEndian) :=
  mkByteOrdered inner StaticEndianness_new.
Definition ByteOrdered_native `{Target} (inner : T)
  : ByteOrdered T (StaticEndianness NativeEndian) :=
  mkByteOrdered inner StaticEndianness_new.
Definition ByteOrdered_network (inner : T)
  : ByteOrdered T (StaticEndianness NetworkEndian) :=
  mkByteOrdered inner StaticEndianness_new.

Definition into_inner {E} (self : ByteOrdered T E) : T := inner self.

Definition into_endianness {E E2} (self : ByteOrdered T E) (e : E2) : ByteOrdered T E2 :=
  ByteOrdered_new (inner self) e.
(** [set_endianness(&mut self, e)]: the updated wrapper. *)
Definition set_endianness {E} (self : ByteOrdered T E) (e : E) : ByteOrdered T E :=
  {| inner := inner self; endianness := e |}.
Definition into_le {E} (self : ByteOrdered T E) := ByteOrdered_le (inner self).
Definition into_be {E} (self : ByteOrdered T E) := ByteOrdered_be (inner self).
Definition into_native `{Target} {E} (self : ByteOrdered T E) :=
  ByteOrdered_native (inner self).
Definition ByteOrdered_into_opposite {E} `{Endian E} (self : ByteOrdered T E)
  : ByteOrdered T Opposite :=
  {| inner := inner self; endianness := into_opposite (endianness self) |}.
Definition ByteOrdered_is_native {E} `{Endian E} (self : ByteOrdered T E) : bool :=
  is_native (endianness self).

(** Replaces the inner endpoint, keeping the order. *)
Definition with_inner {E} (self : ByteOrdered T E) (t : T) : ByteOrdered T E :=
  {| inner := t; endianness := endianness self |}.

(** [impl Read for ByteOrdered<R, E>]: [read_exact] goes to [inner]. *)
#[export] Instance Read_ByteOrdered `{Read T} {E} : Read (ByteOrdered T E) :=
  fun self n => let '(t, r) := read_exact (inner self) n in (with_inner self t, r).

(** [impl Write for ByteOrdered<W, E>]: [write_all] goes to [inner]. *)
#[export] Instance Write_ByteOrdered `{Write T} {E} : Write (ByteOrdered T E) :=
  fun self bs => let '(t, r) := write_all (inner self) bs in (with_inner self t, r).

(** [ByteOrdered::read_i8] / [read_u8]: [ReadBytesExt::read_i8(self)]. *)
Definition ByteOrdered_read_i8 `{Read T} {E} (self : ByteOrdered T E) :=
  read_i8 self.
Definition ByteOrdered_read_u8 `{Read T} {E} (self : ByteOrdered T E) :=
  read_u8 self.

(** [ByteOrdered::write_i8] / [write_u8]: [self.inner.write_i8(x)]. *)
Definition ByteOrdered_write_i8 `{Write T} {E} (self : ByteOrdered T E) (x : Z) :=
  let '(t, r) := write_i8 (inner self) x in (with_inner self t, r).
Definition ByteOrdered_write_u8 `{Write T} {E} (self : ByteOrdered T E) (x : Z) :=
  let '(t, r) := write_u8 (inner self) x in (with_inner self t, r).

(** The multi-byte methods: [self.endianness.read_W(self.inner.by_ref())]. *)
Definition ByteOrdered_read `{Read T} {E} `{Endian E} (self : ByteOrdered T E) (w : width) :=
  let '(t, r) := read (endianness self) w (inner self) in (with_inner self t, r).
Definition ByteOrdered_read_into `{Read T} {E} `{Endian E} (self : ByteOrdered T E)
  (w : width) (n : nat) :=
  let '(t, r) := read_into (endianness self) w (inner self) n in (with_inner self t, r).
Definition ByteOrdered_write `{Write T} {E} `{Endian E} (self : ByteOrdered T E)
  (w : width) (v : Z) :=
  let '(t, r) := write (endianness self) w (inner self) v in (with_inner self t, r).

Definition ByteOrdered_read_u64 `{Read T} {E} `{Endian E} (self : ByteOrdered T E) :=
  ByteOrdered_read self W_u64.
End Wrapper.

(** ** The scoped dispatch construct [with_order!]

    The macro's definition is not among the sources (only its test,
    [tests/macro.rs], is); the definitions below are modelled from the
    spec (section 4.3).  The block the macro receives is re-emitted once
    per order; it is modelled as a program over the wrapper's operations,
    interpreted at whatever capability type the wrapper holds. *)

(** The operations a block can call on a wrapped endpoint. *)
Inductive Op : Type -> Type :=
| ReadNum (w : width) : Op (IoResult Z)
| ReadNumInto (w : width) (n : nat) : Op (IoResult (list Z))
| WriteNum (w : width) (v : Z) : Op (IoResult unit)
| ReadU8 : Op (IoResult Z)
| ReadI8 : Op (IoResult Z)
| WriteU8 (v : Z) : Op (IoResult unit)
| WriteI8 (v : Z) : Op (IoResult unit)
| IsNative : Op bool.

Definition run_op {T} `{Read T} `{Write T} {E} `{Endian E} {R : Type}
  (o : Op R) (x : ByteOrdered T E) : ByteOrdered T E * R :=
  match o in Op R return ByteOrdered T E * R with
  | ReadNum w => ByteOrdered_read x w
  | ReadNumInto w n => ByteOrdered_read_into x w n
  | WriteNum w v => ByteOrdered_write x w v
  | ReadU8 => ByteOrdered_read_u8 x
  | ReadI8 => ByteOrdered_read_i8 x
  | WriteU8 v => ByteOrdered_write_u8 x v
  | WriteI8 v => ByteOrdered_write_i8 x v
  | IsNative => (x, ByteOrdered_is_native x)
  end.

(** A block over one wrapped endpoint. *)
Inductive Block (A : Type) : Type :=
| Ret (a : A)
| Bind {R : Type} (o : Op R) (k : R -> Block A).
Arguments Ret {A} a.
Arguments Bind {A R} o k.

Fixpoint run_block {T} `{Read T} `{Write T} {E} `{Endian E} {A}
  (b : Block A) (x : ByteOrdered T E) : ByteOrdered T E * A :=
  match b with
  | Ret a => (x, a)
  | Bind o k => let '(x', r) := run_op o x in run_block (k r) x'
  end.

(** Which endpoint of a tuple an operation addresses. *)
Inductive port : Type := First | Second.

(** A block over a pair of wrapped endpoints. *)
Inductive Block2 (A : Type) : Type :=
| Ret2 (a : A)
| Bind2 {R : Type} (p : port) (o : Op R) (k : R -> Block2 A).
Arguments Ret2 {A} a.
Arguments Bind2 {A R} p o k.

Fixpoint run_block2 {T1 T2} `{Read T1} `{Write T1} `{Read T2} `{Write T2}
  {E} `{Endian E} {A} (b : Block2 A) (x : ByteOrdered T1 E * ByteOrdered T2 E)
  : (ByteOrdered T1 E * ByteOrdered T2 E) * A :=
  match b with
  | Ret2 a => (x, a)
  | Bind2 First o k =>
      let '(x1', r) := run_op o (fst x) in run_block2 (k r) (x1', snd x)
  | Bind2 Second o k =>
      let '(x2', r) := run_op o (snd x) in run_block2 (k r) (fst x, x2')
  end.

(** Modelled from the spec: [with_order!(src, e, |data| block)], whose
    definition is missing from the sources.  One run-time branch on [e]
    wraps the endpoint with [ByteOrdered::le] or [ByteOrdered::be] and
    runs the block; the endpoint (borrowed by the macro) and the block's
    value are what the caller observes. *)
Definition with_order `{Target} {T} `{Read T} `{Write T} {A}
  (src : T) (e : Endianness) (blk : Block A) : T * A :=
  match e with
  | Little => let '(x, a) := run_block blk (ByteOrdered_le src) in (into_inner x, a)
  | Big => let '(x, a) := run_block blk (ByteOrdered_be src) in (into_inner x, a)
  end.

(** Modelled from the spec: [with_order!((src1, src2), e, |d1, d2| block)],
    the tuple form, all wrappers sharing the resolved order. *)
Definition with_order2 `{Target} {T1 T2} `{Read T1} `{Write T1} `{Read T2}
  `{Write T2} {A} (src : T1 * T2) (e : Endianness) (blk : Block2 A)
  : (T1 * T2) * A :=
  match e with
  | Little =>
      let '(x, a) := run_block2 blk (ByteOrdered_le (fst src), ByteOrdered_le (snd src)) in
      ((into_inner (fst x), into_inner (snd x)), a)
  | Big =>
      let '(x, a) := run_block2 blk (ByteOrdered_be (fst src), ByteOrdered_be (snd src)) in
      ((into_inner (fst x), into_inner (snd x)), a)
  end.

(** The same block run through [ByteOrdered::runtime(src, e)]. *)
Definition run_runtime `{Target} {T} `{Read T} `{Write T} {A}
  (src : T) (e : Endianness) (blk : Block A) : T * A :=
  let '(x, a) := run_block blk (ByteOrdered_runtime src e) in (into_inner x, a).

Definition run_runtime2 `{Target} {T1 T2} `{Read T1} `{Write T1} `{Read T2}
  `{Write T2} {A} (src : T1 * T2) (e : Endianness) (blk : Block2 A)
  : (T1 * T2) * A :=
  let '(x, a) := run_block2 blk (ByteOrdered_runtime (fst src) e,
                                 ByteOrdered_runtime (snd src) e) in
  ((into_inner (fst x), into_inner (snd x)), a).

(** A value that fits the width's Rust type; float widths hold any bit
    pattern of their size (NaNs and infinities included). *)
Definition representable (w : width) (v : Z) : Prop :=
  if is_signed w
  then - 2 ^ (bits_of w - 1) <= v < 2 ^ (bits_of w - 1)
  else 0 <= v < 2 ^ bits_of w.

(** An x86-64 style build target, for the concrete checks. *)
Definition little_target : Target := {| target_endian := LittleEndian |}.
Definition big_target : Target := {| target_endian := BigEndian |}.

(** The test bytes of [base.rs]. *)
Definition TEST_BYTES : list Z := [0x12; 0x34; 0x56; 0x78; 0x21; 0x43; 0x65; 0x87].

(** ** Further definitions of base.rs and wrap.rs *)

(** A value of [u8]. *)
Definition byte_range (b : Z) : Prop := 0 <= b < 256.

(** The default body of [Endian::read_W_into] in the trait:
    [for e in dst.iter_mut() { *e = self.read_W(&mut reader)?; } Ok(())].
    Both impls override it with byteorder's one-shot [read_W_into]. *)
Fixpoint read_into_default {E} `{Endian E} {St} `{Read St} (self : E) (w : width)
  (src : St) (n : nat) : St * IoResult (list Z) :=
  match n with
  | O => (src, Ok [])
  | S n' =>
      let '(src1, r) := read self w src in
      match r with
      | Err e => (src1, Err e)
      | Ok v =>
          let '(src2, r2) := read_into_default self w src1 n' in
          (src2, match r2 with Ok vs => Ok (v :: vs) | Err e => Err e end)
      end
  end.

(** The writing loop of the tests ([test_write_u64]):
    [for v in vs { writer.write_W(v)?; }]. *)
Fixpoint write_each {E} `{Endian E} {St} `{Write St} (self : E) (w : width)
  (dst : St) (vs : list Z) : St * IoResult unit :=
  match vs with
  | [] => (dst, Ok tt)
  | v :: vs' =>
      let '(dst1, r) := write self w dst v in
      match r with
      | Err e => (dst1, Err e)
      | Ok _ => write_each self w dst1 vs'
      end
  end.

(** [impl PartialEq<Endianness> for StaticEndianness<BigEndian>] and
    [... for StaticEndianness<LittleEndian>]: [*e == Endianness::Big] /
    [*e == Endianness::Little]. *)
Definition StaticEndianness_eq_Endianness {E : ByteOrder} (_ : StaticEndianness E)
  (e : Endianness) : bool :=
  match E with
  | BigEndian => Endianness_eqb e Big
  | LittleEndian => Endianness_eqb e Little
  end.

(** [impl PartialEq<StaticEndianness<BigEndian>> for Endianness] and the
    little endian one: [*self == Endianness::Big] / [... Little]. *)
Definition Endianness_eq_StaticEndianness {E : ByteOrder} (self : Endianness)
  (_ : StaticEndianness E) : bool :=
  match E with
  | BigEndian => Endianness_eqb self Big
  | LittleEndian => Endianness_eqb self Little
  end.



(** The constants [BE] and [LE] of lib.rs. *)
Definition BE : Endianness := Big.
Definition LE : Endianness := Little.

(** ** Lemmas *)

Lemma le_bytes_length (n : nat) (v : Z) : length (le_bytes n v) = n.
Proof.
  revert v; induction n as [|n IH]; intro v; simpl; [reflexivity|].
  now rewrite IH.
Qed.

Lemma le_value_le_bytes (n : nat) (v : Z) :
  le_value (le_bytes n v) = v mod 2 ^ (8 * Z.of_nat n).
Proof.
  revert v; induction n as [|n IH]; intro v.
  - simpl. now rewrite Z.mod_1_r.
  - cbn [le_bytes le_value]. rewrite IH.
    assert (Hl : Z.land v 255 = v mod 2 ^ 8)
      by (change 255 with (Z.ones 8); apply Z.land_ones; lia).
    rewrite <- Z.land_assoc, Z.land_diag, Hl, Z.shiftr_div_pow2 by lia.
    replace (8 * Z.of_nat (S n)) with (8 + 8 * Z.of_nat n) by lia.
    rewrite Z.pow_add_r by lia.
    rewrite Z.rem_mul_r; [reflexivity | lia |].
    apply Z.pow_pos_nonneg; lia.
Qed.

Lemma read_uint_write_uint (o : ByteOrder) (n : nat) (v : Z) :
  read_uint o (write_uint o n v) = v mod 2 ^ (8 * Z.of_nat n).
Proof.
  destruct o; simpl; [|rewrite rev_involutive]; apply le_value_le_bytes.
Qed.

Lemma write_uint_length (o : ByteOrder) (n : nat) (v : Z) :
  length (write_uint o n v) = n.
Proof.
  destruct o; simpl; [|rewrite length_rev]; apply le_bytes_length.
Qed.

Lemma as_signed_mod (bits v : Z) :
  1 <= bits -> - 2 ^ (bits - 1) <= v < 2 ^ (bits - 1) ->
  as_signed bits (v mod 2 ^ bits) = v.
Proof.
  intros Hb Hv. unfold as_signed.
  assert (Hp : 2 ^ bits = 2 * 2 ^ (bits - 1)).
  { rewrite <- Z.pow_succ_r by lia. f_equal; lia. }
  assert (0 < 2 ^ (bits - 1)) by (apply Z.pow_pos_nonneg; lia).
  destruct (Z.leb_spec 0 v).
  - rewrite Z.mod_small by lia.
    destruct (Z.ltb_spec v (2 ^ (bits - 1))); lia.
  - replace (v mod 2 ^ bits) with (v + 2 ^ bits).
    + destruct (Z.ltb_spec (v + 2 ^ bits) (2 ^ (bits - 1))); lia.
    + apply Z.mod_unique with (-1); [left|]; lia.
Qed.

Lemma decode_encode (o : ByteOrder) (w : width) (v : Z) :
  representable w v -> decode o w (encode o w v) = v.
Proof.
  unfold representable, decode, encode. intro Hv.
  rewrite read_uint_write_uint. fold (bits_of w).
  assert (Hw : 16 <= bits_of w) by (destruct w; cbv; discriminate).
  destruct (is_signed w).
  - apply as_signed_mod; lia.
  - apply Z.mod_small; lia.
Qed.

Lemma encode_length (o : ByteOrder) (w : width) (v : Z) :
  length (encode o w v) = size_of w.
Proof. apply write_uint_length. Qed.

(** Reading exactly the bytes of a slice leaves it empty. *)
Lemma read_exact_slice_all (bs : list Z) :
  read_exact (slice bs) (length bs) = (slice [], Ok bs).
Proof.
  unfold read_exact, Read_Stream, slice; simpl.
  rewrite Nat.leb_refl, skipn_all, firstn_all. reflexivity.
Qed.

Section Capabilities.
Context `{Target}.

(** The two capability kinds agree method by method. *)
Lemma static_read_eq (E : ByteOrder) (c : StaticEndianness E)
  {S} `{Read S} (w : width) (s : S) :
  read c w s = read (Endianness_from c) w s.
Proof. destruct E; reflexivity. Qed.

Lemma static_read_into_eq (E : ByteOrder) (c : StaticEndianness E)
  {S} `{Read S} (w : width) (s : S) (n : nat) :
  read_into c w s n = read_into (Endianness_from c) w s n.
Proof. destruct E; reflexivity. Qed.

Lemma static_write_eq (E : ByteOrder) (c : StaticEndianness E)
  {S} `{Write S} (w : width) (s : S) (v : Z) :
  write c w s v = write (Endianness_from c) w s v.
Proof. destruct E; reflexivity. Qed.

Lemma static_is_native_eq (E : ByteOrder) (c : StaticEndianness E) :
  is_native c = is_native (Endianness_from c).
Proof. destruct H as [[]], E; reflexivity. Qed.
End Capabilities.

(** ** Claims *)

(** C1: for every reader or writer, every width and both orders, the
    static capability [StaticEndianness<E>] and the run-time enumerator
    it converts to ([LittleEndian] to [Endianness::Little], [BigEndian]
    to [Endianness::Big]) give the same value or error and leave the
    endpoint in the same state, for [read_W], [read_W_into] and
    [write_W]. *)
Theorem C1_static_runtime_agree `{Target} :
  Endianness_from (@PhantomData LittleEndian) = Little /\
  Endianness_from (@PhantomData BigEndian) = Big /\
  forall (E : ByteOrder) (c : StaticEndianness E),
    (forall S (HS : Read S) (w : width) (s : S),
        read c w s = read (Endianness_from c) w s) /\
    (forall S (HS : Read S) (w : width) (s : S) (n : nat),
        read_into c w s n = read_into (Endianness_from c) w s n) /\
    (forall S (HS : Write S) (w : width) (s : S) (v : Z),
        write c w s v = write (Endianness_from c) w s v).
Proof.
  split; [reflexivity|]. split; [reflexivity|].
  intros E c. split; [|split]; intros.
  - apply static_read_eq.
  - apply static_read_into_eq.
  - apply static_write_eq.
Qed.

(** C3: the bytes [12 34 56 78 21 43 65 87] read as one [u64] give
    [0x87654321_78563412] under [Endianness::Little] and
    [0x12345678_21436587] under [Endianness::Big], consuming all eight. *)
Theorem C3_read_u64_test_bytes `{Target} :
  read_u64 Little (slice TEST_BYTES) = (slice [], Ok 0x87654321_78563412) /\
  read_u64 Big (slice TEST_BYTES) = (slice [], Ok 0x12345678_21436587).
Proof. repeat split; reflexivity. Qed.

(** C4: [to_opposite] is an involution on [Endianness], and for both
    capability kinds the opposite of the opposite reads, reads into,
    writes and answers [is_native] exactly as the original. *)
Theorem C4_opposite_involution `{Target} :
  (forall e : Endianness, to_opposite (to_opposite e) = e) /\
  (forall e : Endianness, (into_opposite (into_opposite e : Endianness) : Endianness) = e) /\
  (forall (E : ByteOrder) (c : StaticEndianness E),
      let c2 := StaticEndianness_into_opposite (StaticEndianness_into_opposite c) in
      is_native c2 = is_native c /\
      (forall S (HS : Read S) (w : width) (s : S), read c2 w s = read c w s) /\
      (forall S (HS : Read S) (w : width) (s : S) (n : nat),
          read_into c2 w s n = read_into c w s n) /\
      (forall S (HS : Write S) (w : width) (s : S) (v : Z),
          write c2 w s v = write c w s v)).
Proof.
  split; [intros []; reflexivity|].
  split; [intros []; reflexivity|].
  intros E c; destruct E; repeat split; reflexivity.
Qed.

(** C5: [is_native] holds for the capability of the build target's
    order and fails for its opposite, for [Endianness] and for the
    static tags; for [Endianness] it holds exactly at [native()]. *)
Theorem C5_is_native_correct `{Target} :
  is_native Endianness_native = true /\
  is_native (to_opposite Endianness_native) = false /\
  is_native StaticEndianness_native = true /\
  is_native (StaticEndianness_into_opposite StaticEndianness_native) = false /\
  (forall e : Endianness, is_native e = true <-> e = Endianness_native) /\
  (forall (E : ByteOrder) (c : StaticEndianness E),
      is_native c = true <-> E = NativeEndian).
Proof.
  destruct H as [[]]; unfold NativeEndian;
    do 4 (split; [reflexivity|]);
    (split; [intros []; compute; split; intro; congruence
            | intros [] c; compute; split; intro; congruence]).
Qed.

Lemma read_num_encode (o : ByteOrder) (w : width) (v : Z) :
  representable w v ->
  read_num o w (slice (encode o w v)) = (slice [], Ok v).
Proof.
  intro Hv. unfold read_num.
  rewrite <- (encode_length o w v), read_exact_slice_all.
  now rewrite decode_encode.
Qed.

(** C2: writing a representable value of any width with either
    capability kind and either order appends [size_of w] bytes to a
    [Vec<u8>] sink and succeeds; reading those bytes back with the same
    capability gives the value exactly (float widths: the bit pattern,
    NaN payloads and infinities included) and consumes them all. *)
Theorem C2_write_read_roundtrip `{Target} (w : width) (v : Z)
  (Hv : representable w v) :
  (forall (o : ByteOrder) (sink : Vec),
      exists bs,
        write (@PhantomData o) w sink v = (mkVec (contents sink ++ bs), Ok tt) /\
        length bs = size_of w /\
        read (@PhantomData o) w (slice bs) = (slice [], Ok v)) /\
  (forall (e : Endianness) (sink : Vec),
      exists bs,
        write e w sink v = (mkVec (contents sink ++ bs), Ok tt) /\
        length bs = size_of w /\
        read e w (slice bs) = (slice [], Ok v)).
Proof.
  split.
  - intros o sink. exists (encode o w v). split; [reflexivity|].
    split; [apply encode_length | now apply read_num_encode].
  - intros e sink.
    set (o := match e with Little => LittleEndian | Big => BigEndian end).
    exists (encode o w v).
    destruct e; subst o; (split; [reflexivity|]);
      (split; [apply encode_length | now apply read_num_encode]).
Qed.

(** C6: on any wrapper, whatever capability it holds, [read_u8],
    [read_i8], [write_u8] and [write_i8] are the plain byte operations
    on the inner endpoint: the result and the new endpoint depend on the
    endpoint alone and the held capability is left as it was. *)
Theorem C6_single_byte_ignores_order {T E : Type} :
  (forall (HR : Read T) (x : ByteOrdered T E),
      ByteOrdered_read_u8 x =
        (let '(t, r) := read_u8 (inner x) in (mkByteOrdered t (endianness x), r)) /\
      ByteOrdered_read_i8 x =
        (let '(t, r) := read_i8 (inner x) in (mkByteOrdered t (endianness x), r))) /\
  (forall (HW : Write T) (x : ByteOrdered T E) (v : Z),
      ByteOrdered_write_u8 x v =
        (let '(t, r) := write_u8 (inner x) v in (mkByteOrdered t (endianness x), r)) /\
      ByteOrdered_write_i8 x v =
        (let '(t, r) := write_i8 (inner x) v in (mkByteOrdered t (endianness x), r))).
Proof.
  split; intros.
  - unfold ByteOrdered_read_u8, ByteOrdered_read_i8, read_u8, read_i8.
    unfold read_exact at 1 3, Read_ByteOrdered.
    destruct (read_exact (inner x) 1); split; reflexivity.
  - unfold ByteOrdered_write_u8, ByteOrdered_write_i8.
    unfold write_u8, write_i8. split; destruct (write_all (inner x) _); reflexivity.
Qed.

Lemma read_num_stream (o : ByteOrder) (w : width) (st : Stream) :
  read_num o w st =
    if Nat.leb (size_of w) (length (pending st))
    then (mkStream (skipn (size_of w) (pending st)) (fault st),
          Ok (decode o w (firstn (size_of w) (pending st))))
    else (mkStream [] (fault st),
          Err (match fault st with Some f => f | None => READ_EXACT_EOF end)).
Proof.
  unfold read_num, read_exact, Read_Stream.
  destruct (Nat.leb _ _); reflexivity.
Qed.

(** C7: for every width and order, with the static tag [c] and the
    run-time enumerator [e] of that order: an error of the underlying
    [read_exact] is returned unchanged (with the reader state it left);
    on a stream with fewer than [size_of w] bytes left the read fails
    with [UnexpectedEof] (or with the stream's own fault, verbatim); with
    enough bytes exactly [size_of w] of them are consumed. *)
Theorem C7_read_errors_and_consumption `{Target} (o : ByteOrder) (w : width) :
  (forall S (HS : Read S) (s s' : S) (err : IoError),
      read_exact s (size_of w) = (s', Err err) ->
      read (@PhantomData o) w s = (s', Err err) /\
      read (Endianness_from (@PhantomData o)) w s = (s', Err err)) /\
  (forall st : Stream, (length (pending st) < size_of w)%nat ->
      let res := (mkStream [] (fault st),
                  Err (match fault st with Some f => f | None => READ_EXACT_EOF end)) in
      read (@PhantomData o) w st = res /\
      read (Endianness_from (@PhantomData o)) w st = res) /\
  kind READ_EXACT_EOF = UnexpectedEof /\
  (forall st : Stream, (size_of w <= length (pending st))%nat ->
      let res := (mkStream (skipn (size_of w) (pending st)) (fault st),
                  Ok (decode o w (firstn (size_of w) (pending st)))) in
      read (@PhantomData o) w st = res /\
      read (Endianness_from (@PhantomData o)) w st = res /\
      length (pending st) = (size_of w + length (skipn (size_of w) (pending st)))%nat).
Proof.
  split; [|split; [|split; [reflexivity|]]].
  - intros S HS s s' err Hr.
    assert (Hn : read_num o w s = (s', Err err))
      by (unfold read_num; now rewrite Hr).
    destruct o; split; exact Hn.
  - intros st Hlt res.
    assert (Hn : read_num o w st = res).
    { rewrite read_num_stream.
      replace (Nat.leb (size_of w) (length (pending st))) with false
        by (symmetry; apply Nat.leb_gt; exact Hlt).
      reflexivity. }
    destruct o; split; exact Hn.
  - intros st Hle res.
    assert (Hn : read_num o w st = res).
    { rewrite read_num_stream.
      replace (Nat.leb (size_of w) (length (pending st))) with true
        by (symmetry; apply Nat.leb_le; exact Hle).
      reflexivity. }
    rewrite length_skipn.
    destruct o; (split; [exact Hn | split; [exact Hn | lia]]).
Qed.

(** C8: replacing the held capability ([into_endianness],
    [set_endianness], [into_le], [into_be], [into_native],
    [into_opposite]) keeps the inner endpoint as it is; the numeric
    operations that follow use the new capability; [into_inner] gives
    back the endpoint exactly as held. *)
Theorem C8_reorder_keeps_endpoint `{Target} {T E : Type} (x : ByteOrdered T E) :
  into_inner x = inner x /\
  (forall (t : T) (e : E), into_inner (ByteOrdered_new t e) = t) /\
  (forall E2 (e2 : E2), into_inner (into_endianness x e2) = into_inner x) /\
  (forall e : E, into_inner (set_endianness x e) = into_inner x /\
                 endianness (set_endianness x e) = e) /\
  into_inner (into_le x) = into_inner x /\
  into_inner (into_be x) = into_inner x /\
  into_inner (into_native x) = into_inner x /\
  (forall HE : Endian E, into_inner (ByteOrdered_into_opposite x) = into_inner x) /\
  (forall (HR : Read T) E2 (HE2 : Endian E2) (e2 : E2) (w : width),
      ByteOrdered_read (into_endianness x e2) w =
        (let '(t, r) := read e2 w (inner x) in (ByteOrdered_new t e2, r))) /\
  (forall (HW : Write T) E2 (HE2 : Endian E2) (e2 : E2) (w : width) (v : Z),
      ByteOrdered_write (into_endianness x e2) w v =
        (let '(t, r) := write e2 w (inner x) v in (ByteOrdered_new t e2, r))).
Proof.
  repeat split; intros; reflexivity.
Qed.

(** C10: [ByteOrdered::network] builds the same wrapper as
    [ByteOrdered::be] ([NetworkEndian] is [BigEndian]), so every
    operation on the two gives the same result. *)
Theorem C10_network_is_be `{Target} {T : Type} :
  NetworkEndian = BigEndian /\
  (forall t : T, ByteOrdered_network t = ByteOrdered_be t) /\
  (forall (HR : Read T) (HW : Write T) (R : Type) (o : Op R) (t : T),
      run_op o (ByteOrdered_network t) = run_op o (ByteOrdered_be t)).
Proof. repeat split. Qed.

Section ScopedDispatch.
Context `{Target}.

(** An operation of a block on the bare endpoint, with the capability
    it is read or written with. *)
Definition op_on_endpoint {T} `{Read T} `{Write T} {E} `{Endian E} {R}
  (o : Op R) (e : E) (t : T) : T * R :=
  match o in Op R return T * R with
  | ReadNum w => read e w t
  | ReadNumInto w n => read_into e w t n
  | WriteNum w v => write e w t v
  | ReadU8 => read_u8 t
  | ReadI8 => read_i8 t
  | WriteU8 v => write_u8 t v
  | WriteI8 v => write_i8 t v
  | IsNative => (t, is_native e)
  end.

Ltac destruct_innermost_pair :=
  repeat match goal with
         | |- context [let '(_, _) := ?p in _] =>
             match p with
             | context [let '(_, _) := _ in _] => fail 1
             | _ => destruct p
             end
         end.

Lemma run_op_on_endpoint {T} `{Read T} `{Write T} {E} `{Endian E} {R}
  (o : Op R) (x : ByteOrdered T E) :
  run_op o x =
    (let '(t, r) := op_on_endpoint o (endianness x) (inner x) in (with_inner x t, r)).
Proof.
  destruct x as [t e].
  destruct o; cbn;
    unfold ByteOrdered_read, ByteOrdered_read_into, ByteOrdered_write,
      ByteOrdered_read_u8, ByteOrdered_read_i8, ByteOrdered_write_u8,
      ByteOrdered_write_i8, read_u8, read_i8, write_u8, write_i8,
      read_exact, Read_ByteOrdered; cbn; unfold read_exact;
    destruct_innermost_pair; reflexivity.
Qed.

Lemma op_on_endpoint_static_runtime {T} `{Read T} `{Write T} (E : ByteOrder)
  (c : StaticEndianness E) {R} (o : Op R) (t : T) :
  op_on_endpoint o c t = op_on_endpoint o (Endianness_from c) t.
Proof.
  destruct o; cbn.
  - apply static_read_eq.
  - apply static_read_into_eq.
  - apply static_write_eq.
  - reflexivity.
  - reflexivity.
  - reflexivity.
  - reflexivity.
  - destruct H as [[]], E; reflexivity.
Qed.

(** A block run on a wrapper holding [StaticEndianness<E>] and on the
    same endpoint wrapped with the matching [Endianness]. *)
Lemma run_block_static_runtime {T} `{Read T} `{Write T} (E : ByteOrder)
  (c : StaticEndianness E) {A} (blk : Block A) (t : T) :
  let '(x1, a1) := run_block blk (mkByteOrdered t c) in
  let '(x2, a2) := run_block blk (mkByteOrdered t (Endianness_from c)) in
  inner x1 = inner x2 /\ a1 = a2.
Proof.
  revert t; induction blk as [a | R o k IH]; intro t; [split; reflexivity|].
  cbn [run_block].
  rewrite !run_op_on_endpoint; cbn [endianness inner].
  rewrite <- op_on_endpoint_static_runtime.
  destruct (op_on_endpoint o c t) as [t' r].
  apply IH.
Qed.

Lemma run_block2_static_runtime {T1 T2} `{Read T1} `{Write T1} `{Read T2}
  `{Write T2} (E : ByteOrder) (c : StaticEndianness E) {A} (blk : Block2 A)
  (t1 : T1) (t2 : T2) :
  let '(x1, a1) := run_block2 blk (mkByteOrdered t1 c, mkByteOrdered t2 c) in
  let '(x2, a2) := run_block2 blk (mkByteOrdered t1 (Endianness_from c),
                                   mkByteOrdered t2 (Endianness_from c)) in
  inner (fst x1) = inner (fst x2) /\ inner (snd x1) = inner (snd x2) /\ a1 = a2.
Proof.
  revert t1 t2; induction blk as [a | R p o k IH]; intros t1 t2;
    [repeat split; reflexivity|].
  destruct p; cbn [run_block2 fst snd];
    rewrite !run_op_on_endpoint; cbn [endianness inner];
    rewrite <- op_on_endpoint_static_runtime.
  - destruct (op_on_endpoint o c t1) as [t' r]. apply IH.
  - destruct (op_on_endpoint o c t2) as [t' r]. apply IH.
Qed.
End ScopedDispatch.

(** C9 (modelled from the spec): for every run-time order, every block
    of wrapper operations and every endpoint, or pair of endpoints,
    [with_order!] returns the same value and leaves the endpoints in the
    same state as running the block on [ByteOrdered::runtime]. *)
Theorem C9_with_order_matches_runtime `{Target} :
  (forall T (HR : Read T) (HW : Write T) A (src : T) (e : Endianness) (blk : Block A),
      with_order src e blk = run_runtime src e blk) /\
  (forall T1 T2 (HR1 : Read T1) (HW1 : Write T1) (HR2 : Read T2) (HW2 : Write T2)
          A (src : T1 * T2) (e : Endianness) (blk : Block2 A),
      with_order2 src e blk = run_runtime2 src e blk).
Proof.
  split.
  - intros T HR HW A src e blk.
    unfold with_order, run_runtime, ByteOrdered_runtime, ByteOrdered_new.
    destruct e;
      [ pose proof (run_block_static_runtime LittleEndian PhantomData blk src) as Hb
      | pose proof (run_block_static_runtime BigEndian PhantomData blk src) as Hb ];
      unfold ByteOrdered_le, ByteOrdered_be, StaticEndianness_new;
      destruct (run_block blk (mkByteOrdered src PhantomData)) as [x1 a1];
      cbn in Hb; destruct (run_block blk (mkByteOrdered src _)) as [x2 a2];
      destruct Hb as [Hx Ha]; unfold into_inner; now rewrite Hx, Ha.
  - intros T1 T2 HR1 HW1 HR2 HW2 A [s1 s2] e blk.
    unfold with_order2, run_runtime2, ByteOrdered_runtime, ByteOrdered_new.
    cbn [fst snd].
    destruct e;
      [ pose proof (run_block2_static_runtime LittleEndian PhantomData blk s1 s2) as Hb
      | pose proof (run_block2_static_runtime BigEndian PhantomData blk s1 s2) as Hb ];
      unfold ByteOrdered_le, ByteOrdered_be, StaticEndianness_new;
      destruct (run_block2 blk (mkByteOrdered s1 PhantomData, mkByteOrdered s2 PhantomData))
        as [x1 a1];
      cbn in Hb; destruct (run_block2 blk (mkByteOrdered s1 _, mkByteOrdered s2 _))
        as [x2 a2];
      destruct Hb as [Hx [Hy Ha]]; unfold into_inner; now rewrite Hx, Hy, Ha.
Qed.

(** ** Further properties of base.rs and wrap.rs *)

Lemma land255_mod (v : Z) : Z.land v 255 = v mod 256.
Proof. change 255 with (Z.ones 8). apply Z.land_ones; lia. Qed.

Lemma le_value_range (bs : list Z) :
  0 <= le_value bs < 2 ^ (8 * Z.of_nat (length bs)).
Proof.
  induction bs as [|b bs IH]; cbn [le_value length]; [simpl; lia|].
  rewrite land255_mod.
  pose proof (Z.mod_pos_bound b 256 ltac:(lia)).
  replace (8 * Z.of_nat (S (length bs))) with (8 + 8 * Z.of_nat (length bs)) by lia.
  rewrite Z.pow_add_r by lia. change (2 ^ 8) with 256. nia.
Qed.

Lemma as_signed_range (bits u : Z) :
  1 <= bits -> 0 <= u < 2 ^ bits ->
  - 2 ^ (bits - 1) <= as_signed bits u < 2 ^ (bits - 1).
Proof.
  intros Hb Hu. unfold as_signed.
  assert (Hp : 2 ^ bits = 2 * 2 ^ (bits - 1)).
  { rewrite <- Z.pow_succ_r by lia. f_equal; lia. }
  destruct (Z.ltb_spec u (2 ^ (bits - 1))); lia.
Qed.

Lemma decode_representable (o : ByteOrder) (w : width) (buf : list Z) :
  length buf = size_of w -> representable w (decode o w buf).
Proof.
  intro Hl. unfold representable, decode.
  assert (Hr : 0 <= read_uint o buf < 2 ^ bits_of w).
  { unfold bits_of; rewrite <- Hl.
    destruct o; simpl; [apply le_value_range|].
    rewrite <- length_rev. apply le_value_range. }
  assert (Hw : 16 <= bits_of w) by (destruct w; cbv; discriminate).
  destruct (is_signed w); [apply as_signed_range; lia | exact Hr].
Qed.

Lemma le_bytes_add_mul (n : nat) (v k : Z) :
  le_bytes n (v + k * 2 ^ (8 * Z.of_nat n)) = le_bytes n v.
Proof.
  revert v k; induction n as [|n IH]; intros v k; [reflexivity|].
  cbn [le_bytes].
  replace (8 * Z.of_nat (S n)) with (8 * Z.of_nat n + 8) by lia.
  rewrite Z.pow_add_r by lia. change (2 ^ 8) with 256.
  rewrite Z.mul_assoc, !land255_mod, Z.mod_add by lia.
  rewrite !Z.shiftr_div_pow2 by lia. change (2 ^ 8) with 256.
  rewrite Z.div_add by lia. f_equal. apply IH.
Qed.

Lemma le_bytes_le_value (bs : list Z) :
  Forall byte_range bs -> le_bytes (length bs) (le_value bs) = bs.
Proof.
  induction 1 as [|b bs Hb Hbs IH]; [reflexivity|].
  cbn [length le_bytes le_value]. unfold byte_range in Hb.
  rewrite !land255_mod, (Z.mod_small b 256) by lia.
  rewrite Z.shiftr_div_pow2 by lia. change (2 ^ 8) with 256.
  rewrite Z.mul_comm, Z.mod_add, Z.mod_small, Z.div_add, Z.div_small by lia.
  simpl. now rewrite IH.
Qed.

Lemma encode_decode (o : ByteOrder) (w : width) (bs : list Z) :
  Forall byte_range bs -> length bs = size_of w -> encode o w (decode o w bs) = bs.
Proof.
  intros Hf Hl. unfold encode, decode, write_uint.
  assert (Hs : forall u, le_bytes (size_of w) (if is_signed w then as_signed (bits_of w) u else u)
                         = le_bytes (size_of w) u).
  { intro u. destruct (is_signed w); [|reflexivity]. unfold as_signed.
    destruct (u <? 2 ^ (bits_of w - 1)); [reflexivity|].
    unfold bits_of. replace (u - 2 ^ (8 * Z.of_nat (size_of w)))
      with (u + (-1) * 2 ^ (8 * Z.of_nat (size_of w))) by ring.
    apply le_bytes_add_mul. }
  destruct o; simpl; rewrite Hs.
  - rewrite <- Hl. now apply le_bytes_le_value.
  - rewrite <- Hl, <- length_rev, le_bytes_le_value, rev_involutive; [reflexivity|].
    now apply Forall_rev.
Qed.

Lemma read_num_into_stream (o : ByteOrder) (w : width) (st : Stream) (n : nat) :
  read_num_into o w st n =
    if Nat.leb (n * size_of w) (length (pending st))
    then (mkStream (skipn (n * size_of w) (pending st)) (fault st),
          Ok (map (decode o w) (chunks (size_of w) n (firstn (n * size_of w) (pending st)))))
    else (mkStream [] (fault st),
          Err (match fault st with Some f => f | None => READ_EXACT_EOF end)).
Proof.
  unfold read_num_into, read_exact, Read_Stream.
  destruct (Nat.leb _ _); reflexivity.
Qed.

Lemma read_into_default_stream {E} `{Endian E} (c : E) (o : ByteOrder) (w : width) :
  (forall st : Stream, read c w st = read_num o w st) ->
  forall (n : nat) (st : Stream),
    read_into_default c w st n = read_num_into o w st n.
Proof.
  intros Hc n. induction n as [|n IH]; intro st.
  - destruct st as [L f]. rewrite read_num_into_stream. reflexivity.
  - cbn [read_into_default]. rewrite Hc, read_num_stream, read_num_into_stream.
    destruct st as [L f]; cbn [pending fault].
    rewrite Nat.mul_succ_l.
    destruct (Nat.leb_spec (size_of w) (length L)) as [Hk|Hk].
    + rewrite IH, read_num_into_stream; cbn [pending fault].
      rewrite length_skipn.
      destruct (Nat.leb_spec (n * size_of w) (length L - size_of w)) as [Hn|Hn];
        destruct (Nat.leb_spec (n * size_of w + size_of w) (length L)) as [Hm|Hm];
        try lia; [|reflexivity].
      rewrite skipn_skipn, Nat.add_comm. cbn [chunks map].
      rewrite firstn_firstn, skipn_firstn_comm.
      replace (Nat.min (size_of w) (size_of w + n * size_of w)) with (size_of w) by lia.
      replace (size_of w + n * size_of w - size_of w)%nat with (n * size_of w)%nat by lia.
      reflexivity.
    + destruct (Nat.leb_spec (n * size_of w + size_of w) (length L)); [lia|reflexivity].
Qed.

Lemma read_runtime_num `{Target} (e : Endianness) {St} `{Read St} (w : width) (s : St) :
  read e w s = read_num (match e with Little => LittleEndian | Big => BigEndian end) w s.
Proof. destruct e; reflexivity. Qed.

Lemma read_into_runtime_num `{Target} (e : Endianness) {St} `{Read St} (w : width)
  (s : St) (n : nat) :
  read_into e w s n =
    read_num_into (match e with Little => LittleEndian | Big => BigEndian end) w s n.
Proof. destruct e; reflexivity. Qed.

Lemma write_runtime_num `{Target} (e : Endianness) {St} `{Write St} (w : width)
  (d : St) (v : Z) :
  write e w d v = write_num (match e with Little => LittleEndian | Big => BigEndian end) w d v.
Proof. destruct e; reflexivity. Qed.

(** X2: on a byte stream, the bulk [read_W_into] of both capability
    kinds (one [read_exact] of the whole buffer) gives the same result and
    leaves the stream in the same state as the trait's default loop of
    single reads. *)
Theorem read_into_matches_default_loop `{Target} :
  (forall (e : Endianness) (w : width) (st : Stream) (n : nat),
      read_into e w st n = read_into_default e w st n) /\
  (forall (E : ByteOrder) (c : StaticEndianness E) (w : width) (st : Stream) (n : nat),
      read_into c w st n = read_into_default c w st n).
Proof.
  split; intros.
  - rewrite read_into_runtime_num. symmetry. apply read_into_default_stream.
    intro. apply read_runtime_num.
  - symmetry. apply read_into_default_stream. reflexivity.
Qed.

Lemma firstn_skipn_app (a b : list Z) (k : nat) :
  length a = k -> firstn k (a ++ b) = a /\ skipn k (a ++ b) = b.
Proof.
  intro Hl; subst k. induction a as [|x a IH]; [split; reflexivity|].
  simpl. destruct IH as [H1 H2]. rewrite H1, H2. split; reflexivity.
Qed.

Lemma chunks_concat_encode (o : ByteOrder) (w : width) (vs : list Z) :
  chunks (size_of w) (length vs) (concat (map (encode o w) vs)) = map (encode o w) vs.
Proof.
  induction vs as [|v vs IH]; [reflexivity|].
  cbn [length chunks concat map]. fold (concat (map (encode o w) vs)).
  destruct (firstn_skipn_app (encode o w v) (concat (map (encode o w) vs)) (size_of w)
              (encode_length o w v)) as [H1 H2].
  simpl. rewrite H1, H2, IH. reflexivity.
Qed.

Lemma concat_encode_length (o : ByteOrder) (w : width) (vs : list Z) :
  length (concat (map (encode o w) vs)) = (length vs * size_of w)%nat.
Proof.
  induction vs as [|v vs IH]; [reflexivity|].
  simpl. rewrite length_app, encode_length, IH. lia.
Qed.

Lemma write_each_vec {E} `{Endian E} (c : E) (o : ByteOrder) (w : width) :
  (forall (d : Vec) (v : Z), write c w d v = write_num o w d v) ->
  forall (vs : list Z) (l : list Z),
    write_each c w (mkVec l) vs = (mkVec (l ++ concat (map (encode o w) vs)), Ok tt).
Proof.
  intros Hc vs. induction vs as [|v vs IH]; intro l.
  - simpl. now rewrite app_nil_r.
  - cbn [write_each]. rewrite Hc. cbn. rewrite IH, app_assoc. reflexivity.
Qed.

(** X3: writing a list of representable values one after the other into
    a [Vec] appends [n * size_of w] bytes; a bulk read of [n] values over
    those bytes gives the list back and exhausts them. *)
Theorem write_each_read_into_roundtrip `{Target} (e : Endianness) (w : width)
  (vs : list Z) (l : list Z) :
  Forall (representable w) vs ->
  exists bs,
    write_each e w (mkVec l) vs = (mkVec (l ++ bs), Ok tt) /\
    length bs = (length vs * size_of w)%nat /\
    read_into e w (slice bs) (length vs) = (slice [], Ok vs).
Proof.
  intro Hv.
  set (o := match e with Little => LittleEndian | Big => BigEndian end).
  exists (concat (map (encode o w) vs)).
  split; [|split; [apply concat_encode_length|]].
  - apply write_each_vec. intros. apply write_runtime_num.
  - rewrite read_into_runtime_num. fold o.
    rewrite read_num_into_stream. unfold slice; cbn [pending fault].
    pose proof (concat_encode_length o w vs) as Hl.
    rewrite <- Hl, Nat.leb_refl.
    rewrite (skipn_all (concat (map (encode o w) vs))).
    rewrite (firstn_all (concat (map (encode o w) vs))).
    rewrite chunks_concat_encode.
    rewrite map_map.
    f_equal. f_equal. rewrite <- (map_id vs) at 2. apply map_ext_Forall.
    eapply Forall_impl; [|exact Hv]. intros v Hr. now apply decode_encode.
Qed.

Lemma chunks_lengths (k n : nat) (buf : list Z) :
  length buf = (n * k)%nat ->
  length (chunks k n buf) = n /\ Forall (fun c => length c = k) (chunks k n buf).
Proof.
  revert buf. induction n as [|n IH]; intros buf Hl; [split; [reflexivity|constructor]|].
  cbn [chunks length].
  destruct (IH (skipn k buf)) as [H1 H2]; [rewrite length_skipn; lia|].
  rewrite H1. split; [reflexivity|]. constructor; [|exact H2].
  rewrite length_firstn. lia.
Qed.

(** X4: every value a successful read from a stream returns fits the
    width's Rust type; a successful bulk read returns exactly [n] such
    values. *)
Theorem read_results_representable `{Target} (e : Endianness) (w : width) :
  (forall (st st' : Stream) (v : Z),
      read e w st = (st', Ok v) -> representable w v) /\
  (forall (st st' : Stream) (n : nat) (vs : list Z),
      read_into e w st n = (st', Ok vs) ->
      length vs = n /\ Forall (representable w) vs).
Proof.
  split.
  - intros st st' v Hr. rewrite read_runtime_num, read_num_stream in Hr.
    destruct (Nat.leb_spec (size_of w) (length (pending st))) as [Hk|Hk];
      [|discriminate].
    injection Hr as _ <-. apply decode_representable.
    rewrite length_firstn. lia.
  - intros st st' n vs Hr. rewrite read_into_runtime_num, read_num_into_stream in Hr.
    destruct (Nat.leb_spec (n * size_of w) (length (pending st))) as [Hk|Hk];
      [|discriminate].
    injection Hr as _ <-.
    destruct (chunks_lengths (size_of w) n (firstn (n * size_of w) (pending st)))
      as [H1 H2]; [rewrite length_firstn; lia|].
    rewrite length_map. split; [exact H1|].
    apply Forall_map. eapply Forall_impl; [|exact H2].
    intros c Hc. now apply decode_representable.
Qed.

(** X5: [size_of w] in-range bytes read in either order give a value
    that, written in the same order, gives the same bytes back; the read
    consumes exactly those bytes. *)
Theorem bytes_read_write_roundtrip `{Target} (e : Endianness) (w : width)
  (bs rest l : list Z) :
  Forall byte_range bs -> length bs = size_of w ->
  exists v,
    read e w (slice (bs ++ rest)) = (slice rest, Ok v) /\
    write e w (mkVec l) v = (mkVec (l ++ bs), Ok tt).
Proof.
  intros Hb Hl.
  set (o := match e with Little => LittleEndian | Big => BigEndian end).
  exists (decode o w bs). split.
  - rewrite read_runtime_num. fold o. rewrite read_num_stream. unfold slice.
    cbn [pending fault].
    destruct (firstn_skipn_app bs rest (size_of w) Hl) as [H1 H2].
    rewrite length_app, <- Hl, (proj2 (Nat.leb_le _ _)) by lia.
    rewrite Hl, H1, H2. reflexivity.
  - rewrite write_runtime_num. fold o. unfold write_num. cbn.
    rewrite encode_decode by assumption. reflexivity.
Qed.

(** X1: the bytes written in big endian are those written in little endian
    in reverse order; on in-range bytes of the width's size, both orders
    read the same value exactly when the bytes form a palindrome. *)
Theorem big_is_reversed_little `{Target} (w : width) :
  (forall (l : list Z) (v : Z), exists bs,
      write Little w (mkVec l) v = (mkVec (l ++ bs), Ok tt) /\
      write Big w (mkVec l) v = (mkVec (l ++ rev bs), Ok tt)) /\
  (forall bs : list Z, Forall byte_range bs -> length bs = size_of w ->
      snd (read Big w (slice bs)) = snd (read Little w (slice bs)) <-> rev bs = bs).
Proof.
  split.
  - intros l v. exists (encode LittleEndian w v). split; reflexivity.
  - intros bs Hb Hl. cbn [read Endian_Endianness].
    rewrite !read_num_stream. unfold slice; cbn [pending fault].
    rewrite <- Hl, Nat.leb_refl, (firstn_all bs). cbn [snd].
    assert (Hr : Forall byte_range (rev bs)) by (apply Forall_rev; exact Hb).
    assert (Hrl : length (rev bs) = size_of w) by (rewrite length_rev; exact Hl).
    split.
    + intro Heq. injection Heq as Heq.
      assert (Hd : decode BigEndian w bs = decode LittleEndian w (rev bs)).
      { unfold decode, read_uint. reflexivity. }
      rewrite Hd in Heq.
      rewrite <- (encode_decode LittleEndian w (rev bs) Hr Hrl), Heq.
      apply encode_decode; assumption.
    + intro Hp. unfold decode, read_uint. rewrite Hp. reflexivity.
Qed.

(** X6: after a read, [set_endianness] switches the order of the next
    read of the same wrapper: each read decodes its own bytes of the
    stream in the order current at the time. *)
Theorem set_endianness_mid_stream `{Target} (e1 e2 : Endianness) (w1 w2 : width)
  (bs1 bs2 : list Z) :
  length bs1 = size_of w1 -> (size_of w2 <= length bs2)%nat ->
  let '(x1, r1) := ByteOrdered_read (ByteOrdered_runtime (slice (bs1 ++ bs2)) e1) w1 in
  let '(x2, r2) := ByteOrdered_read (set_endianness x1 e2) w2 in
  r1 = snd (read e1 w1 (slice bs1)) /\
  r2 = snd (read e2 w2 (slice bs2)) /\
  into_inner x2 = slice (skipn (size_of w2) bs2) /\
  endianness x2 = e2.
Proof.
  intros Hl1 Hl2.
  unfold ByteOrdered_read, ByteOrdered_runtime, ByteOrdered_new.
  cbn [inner endianness].
  rewrite !read_runtime_num, !read_num_stream. unfold slice; cbn [pending fault].
  destruct (firstn_skipn_app bs1 bs2 (size_of w1) Hl1) as [H1 H2].
  rewrite length_app, <- Hl1, Nat.leb_refl, (firstn_all bs1), (skipn_all bs1).
  rewrite (proj2 (Nat.leb_le _ (length bs1 + length bs2))) by lia.
  rewrite Hl1, H1, H2.
  cbn [with_inner set_endianness inner endianness pending fault].
  rewrite read_runtime_num, read_num_stream. cbn [pending fault].
  rewrite (proj2 (Nat.leb_le _ _) Hl2).
  cbn. repeat split; reflexivity.
Qed.

(** X7: the cross-kind [PartialEq] between a static tag and an
    [Endianness] holds exactly when the [From] conversion of the tag gives
    that enumerator, and it is symmetric. *)
Theorem static_runtime_eq_matches_from (E : ByteOrder) (c : StaticEndianness E)
  (e : Endianness) :
  (StaticEndianness_eq_Endianness c e = true <-> Endianness_from c = e) /\
  Endianness_eq_StaticEndianness e c = StaticEndianness_eq_Endianness c e.
Proof. destruct E, e; cbn; split; try reflexivity; split; congruence. Qed.

(** X8: [be_iff] is the opposite of [le_iff]; each selects its order
    exactly on [true]; the constants [LE] and [BE] are their [true]
    cases. *)
Theorem le_iff_be_iff_spec (b : bool) :
  be_iff b = to_opposite (le_iff b) /\
  (le_iff b = Little <-> b = true) /\
  (be_iff b = Big <-> b = true) /\
  le_iff true = LE /\ be_iff true = BE.
Proof. destruct b; cbn; repeat split; congruence. Qed.

(** X9: the opposite order is never the order itself and flips
    [is_native], for both capability kinds. *)
Theorem opposite_flips_is_native `{Target} :
  (forall e : Endianness,
      to_opposite e <> e /\ is_native (to_opposite e) = negb (is_native e)) /\
  (forall (E : ByteOrder) (c : StaticEndianness E),
      is_native (StaticEndianness_into_opposite c) = negb (is_native c)).
Proof.
  split.
  - intros []; cbn; unfold Endianness_native; destruct target_endian;
      split; try discriminate; reflexivity.
  - intros [] c; cbn; unfold StaticNative_is_native; destruct target_endian; reflexivity.
Qed.


(** X11: a bulk read of zero values succeeds on any stream, even a
    faulty or empty one, and consumes nothing. *)
Theorem read_into_zero_consumes_nothing `{Target} (w : width) :
  (forall (e : Endianness) (st : Stream), read_into e w st 0 = (st, Ok [])) /\
  (forall (E : ByteOrder) (c : StaticEndianness E) (st : Stream),
      read_into c w st 0 = (st, Ok [])).
Proof.
  split; intros.
  - rewrite read_into_runtime_num, read_num_into_stream. destruct st. reflexivity.
  - change (read_num_into E w st 0 = (st, Ok [])).
    rewrite read_num_into_stream. destruct st. reflexivity.
Qed.

(** X12: the single-byte writes of the wrapper append [x mod 256] for
    both [u8] and [i8]; reading that byte back gives it as [u8] and its
    two's complement value in [-128, 128) as [i8]. *)
Theorem byte_write_read_roundtrip {E : Type} (e : E) (l : list Z) (x : Z) :
  ByteOrdered_write_u8 (mkByteOrdered (mkVec l) e) x =
    (mkByteOrdered (mkVec (l ++ [x mod 256])) e, Ok tt) /\
  ByteOrdered_write_i8 (mkByteOrdered (mkVec l) e) x =
    (mkByteOrdered (mkVec (l ++ [x mod 256])) e, Ok tt) /\
  ByteOrdered_read_u8 (mkByteOrdered (slice [x mod 256]) e) =
    (mkByteOrdered (slice []) e, Ok (x mod 256)) /\
  ByteOrdered_read_i8 (mkByteOrdered (slice [x mod 256]) e) =
    (mkByteOrdered (slice []) e, Ok (as_signed 8 (x mod 256))) /\
  -128 <= as_signed 8 (x mod 256) < 128.
Proof.
  pose proof (Z.mod_pos_bound x 256 ltac:(lia)) as Hb.
  assert (Hm : Z.land (x mod 256) 255 = x mod 256)
    by (rewrite land255_mod; apply Z.mod_small; lia).
  unfold ByteOrdered_write_u8, ByteOrdered_write_i8, ByteOrdered_read_u8,
    ByteOrdered_read_i8, write_u8, write_i8, read_u8, read_i8.
  cbn. rewrite !land255_mod in *. rewrite Hm.
  repeat split; try reflexivity;
    pose proof (as_signed_range 8 (x mod 256) ltac:(lia) ltac:(cbn; lia)); cbn in *; lia.
Qed.

(** ** Concrete instances of the claims with hypotheses *)

#[local] Existing Instance little_target.

Lemma C2_write_read_roundtrip_witness :
  representable W_i16 (-132) /\
  exists bs,
    write Big W_i16 (mkVec [0; 193]) (-132) = (mkVec ([0; 193] ++ bs), Ok tt) /\
    length bs = size_of W_i16 /\
    read Big W_i16 (slice bs) = (slice [], Ok (-132)).
Proof.
  assert (Hv : representable W_i16 (-132)) by (unfold representable; simpl; lia).
  split; [exact Hv|].
  exact (proj2 (C2_write_read_roundtrip W_i16 (-132) Hv) Big (mkVec [0; 193])).
Defined.

Lemma C7_read_errors_and_consumption_witness :
  (read_exact (mkStream [] (Some (mkIoError Interrupted 4))) (size_of W_u32)
     = (mkStream [] (Some (mkIoError Interrupted 4)), Err (mkIoError Interrupted 4)) /\
   read Big W_u32 (mkStream [] (Some (mkIoError Interrupted 4)))
     = (mkStream [] (Some (mkIoError Interrupted 4)), Err (mkIoError Interrupted 4))) /\
  (Nat.lt (length (pending (slice [0x12]))) (size_of W_u16) /\
   read Little W_u16 (slice [0x12]) = (mkStream [] None, Err READ_EXACT_EOF)) /\
  (Nat.le (size_of W_u16) (length (pending (slice [0x12; 0x34; 0x56]))) /\
   read Little W_u16 (slice [0x12; 0x34; 0x56]) = (slice [0x56], Ok 0x3412)).
Proof.
  assert (Hr : read_exact (mkStream [] (Some (mkIoError Interrupted 4))) (size_of W_u32)
     = (mkStream [] (Some (mkIoError Interrupted 4)), Err (mkIoError Interrupted 4)))
    by reflexivity.
  assert (Hlt : Nat.lt (length (pending (slice [0x12]))) (size_of W_u16)) by (simpl; lia).
  assert (Hle : Nat.le (size_of W_u16) (length (pending (slice [0x12; 0x34; 0x56]))))
    by (simpl; lia).
  split; [split; [exact Hr|]|split; split].
  - exact (proj2 (proj1 (C7_read_errors_and_consumption BigEndian W_u32)
                   Stream Read_Stream _ _ _ Hr)).
  - exact Hlt.
  - exact (proj2 (proj1 (proj2 (C7_read_errors_and_consumption LittleEndian W_u16))
                   (slice [0x12]) Hlt)).
  - exact Hle.
  - exact (proj1 (proj2 (proj2 (proj2 (proj2 (C7_read_errors_and_consumption
                   LittleEndian W_u16))) (slice [0x12; 0x34; 0x56]) Hle))).
Defined.

Lemma big_is_reversed_little_witness :
  (Forall byte_range [0x12; 0x12] /\ length [0x12; 0x12] = size_of W_u16) /\
  (snd (read Big W_u16 (slice [0x12; 0x12])) = snd (read Little W_u16 (slice [0x12; 0x12]))
   <-> rev [0x12; 0x12] = [0x12; 0x12]).
Proof.
  assert (Hb : Forall byte_range [0x12; 0x12])
    by (repeat constructor; unfold byte_range; lia).
  assert (Hl : length [0x12; 0x12] = size_of W_u16) by reflexivity.
  split; [split; assumption|].
  exact (proj2 (big_is_reversed_little W_u16) _ Hb Hl).
Defined.

Lemma write_each_read_into_roundtrip_witness :
  Forall (representable W_u32) [0x12345678; 1] /\
  exists bs,
    write_each Little W_u32 (mkVec [7]) [0x12345678; 1] = (mkVec ([7] ++ bs), Ok tt) /\
    length bs = Nat.mul (length [0x12345678; 1]) (size_of W_u32) /\
    read_into Little W_u32 (slice bs) (length [0x12345678; 1]) =
      (slice [], Ok [0x12345678; 1]).
Proof.
  assert (Hv : Forall (representable W_u32) [0x12345678; 1])
    by (repeat constructor; unfold representable; simpl; lia).
  split; [exact Hv|].
  exact (write_each_read_into_roundtrip Little W_u32 _ [7] Hv).
Defined.

Lemma read_results_representable_witness :
  read Big W_i16 (slice [0xff; 0x7c]) = (slice [], Ok (-132)) /\
  representable W_i16 (-132).
Proof.
  assert (Hr : read Big W_i16 (slice [0xff; 0x7c]) = (slice [], Ok (-132)))
    by reflexivity.
  split; [exact Hr|].
  exact (proj1 (read_results_representable Big W_i16) _ _ _ Hr).
Defined.

Lemma bytes_read_write_roundtrip_witness :
  (Forall byte_range [0x12; 0x34] /\ length [0x12; 0x34] = size_of W_u16) /\
  exists v,
    read Big W_u16 (slice ([0x12; 0x34] ++ [0x56])) = (slice [0x56], Ok v) /\
    write Big W_u16 (mkVec []) v = (mkVec ([] ++ [0x12; 0x34]), Ok tt).
Proof.
  assert (Hb : Forall byte_range [0x12; 0x34])
    by (repeat constructor; unfold byte_range; lia).
  assert (Hl : length [0x12; 0x34] = size_of W_u16) by reflexivity.
  split; [split; assumption|].
  exact (bytes_read_write_roundtrip Big W_u16 _ [0x56] [] Hb Hl).
Defined.

Lemma set_endianness_mid_stream_witness :
  (length (firstn 4 TEST_BYTES) = size_of W_u32 /\
   Nat.le (size_of W_u32) (length (skipn 4 TEST_BYTES))) /\
  let '(x1, r1) := ByteOrdered_read
                     (ByteOrdered_runtime (slice (firstn 4 TEST_BYTES ++ skipn 4 TEST_BYTES))
                        Little) W_u32 in
  let '(x2, r2) := ByteOrdered_read (set_endianness x1 Big) W_u32 in
  r1 = snd (read Little W_u32 (slice (firstn 4 TEST_BYTES))) /\
  r2 = snd (read Big W_u32 (slice (skipn 4 TEST_BYTES))) /\
  into_inner x2 = slice (skipn (size_of W_u32) (skipn 4 TEST_BYTES)) /\
  endianness x2 = Big.
Proof.
  assert (H1 : length (firstn 4 TEST_BYTES) = size_of W_u32) by reflexivity.
  assert (H2 : Nat.le (size_of W_u32) (length (skipn 4 TEST_BYTES))) by (simpl; lia).
  split; [split; assumption|].
  exact (set_endianness_mid_stream Little Big W_u32 W_u32 _ _ H1 H2).
Defined.
